(** * DISCO-EB numerical utilities ([discoeb/util.py])

    A shallow embedding of the four utilities of [util.py]: the complex
    log-gamma evaluator, the fixed-count bisection root finder, the soft
    clip and the Savitzky-Golay filter.

    Numbers.  Python floats are read as real numbers ([R]) and Python
    complex numbers as pairs of reals, so every statement about them is
    a statement of exact arithmetic: rounding, overflow, NaN and signed
    zeros are outside that model.  Python integers are [Z].

    Binary64.  Module [F64] holds the bisection once more, over IEEE
    binary64 floats, to run it where exact arithmetic and the floats of
    the program part: a sum of the two bounds that overflows.

    JAX.  [jax.lax.cond pred true_fun false_fun operand] and
    [jnp.where c a b] select one of two values by a predicate; they are
    modelled as such in module [Jax], together with the few [jnp]
    primitives the source calls. *)

From Stdlib Require Import PrimFloat.
From Stdlib Require Import Reals Lra Lia ZArith String List.
Import ListNotations.

Local Open Scope R_scope.

(* ------------------------------------------------------------------ *)
(** ** The JAX primitives used by the source *)

Module Jax.

(** [jax.lax.cond(pred, true_fun, false_fun, operand)] *)
Definition lax_cond {A B : Type} (pred : bool)
    (true_fun false_fun : A -> B) (operand : A) : B :=
  if pred then true_fun operand else false_fun operand.

(** [jnp.where(c, a, b)] on scalars *)
Definition where_ {A : Type} (c : bool) (a b : A) : A :=
  if c then a else b.

(** Comparisons of floats, as booleans *)
Definition gtb (x y : R) : bool := if Rgt_dec x y then true else false.
Definition ltb (x y : R) : bool := if Rlt_dec x y then true else false.
Definition leb (x y : R) : bool := if Rle_dec x y then true else false.

(** Python's [range(n)] and [range(a, b)] *)
Definition range2 (a b : Z) : list Z :=
  map (fun i => (a + Z.of_nat i)%Z) (seq 0 (Z.to_nat (b - a))).
Definition range (n : Z) : list Z := range2 0 n.

(** [jnp.abs], [jnp.sign], [jnp.clip] on real scalars *)
Definition abs (x : R) : R := Rabs x.
Definition sign (x : R) : R :=
  if Rlt_dec 0 x then 1 else if Rlt_dec x 0 then -1 else 0.
Definition maximum (x y : R) : R := Rmax x y.
Definition minimum (x y : R) : R := Rmin x y.
Definition clip (x a_min a_max : R) : R :=
  minimum (maximum x a_min) a_max.
Definition log (x : R) : R := ln x.

End Jax.

(* ------------------------------------------------------------------ *)
(** ** [root_find_bisect] *)

Section Bisect.

Context {P : Type}.
Variable func : R -> P -> R.

(** The body of the [for] loop: one bisection step on the bracket.
    The loop index [i] is not used by the source. *)
Definition bisect_body (param : P) (st : R * R) (i : Z) : R * R :=
  let '(xleft, xright) := st in
  let xmid := 0.5 * (xleft + xright) in
  Jax.lax_cond (Jax.gtb (func xmid param * func xleft param) 0)
    (fun _ : unit => (xmid, xright))
    (fun _ : unit => (xleft, xmid))
    tt.

(** [for i in range(numit): ...], returning the final bracket. *)
Definition bisect_loop (xleft xright : R) (numit : Z) (param : P) : R * R :=
  fold_left (bisect_body param) (Jax.range numit) (xleft, xright).

Definition root_find_bisect (xleft xright : R) (numit : Z) (param : P) : R :=
  let '(xleft', xright') := bisect_loop xleft xright numit param in
  0.5 * (xleft' + xright').

(** The bracket after the first [k] iterations of a loop of [numit]. *)
Definition bisect_prefix (xleft xright : R) (numit : Z) (param : P)
    (k : nat) : R * R :=
  fold_left (bisect_body param) (firstn k (Jax.range numit)) (xleft, xright).

(** The step and the procedure as the specification words them. *)
Definition spec_step (param : P) (st : R * R) : R * R :=
  let (xleft, xright) := st in
  let xmid := (xleft + xright) / 2 in
  if Rgt_dec (func xmid param * func xleft param) 0
  then (xmid, xright)
  else (xleft, xmid).

Definition spec_bisect (xleft xright : R) (numit : nat) (param : P) : R :=
  let (l, r) := Nat.iter numit (spec_step param) (xleft, xright) in
  (l + r) / 2.

End Bisect.

(* ------------------------------------------------------------------ *)
(** ** [root_find_bisect] on binary64 floats *)

Module F64.

Definition gtb (x y : float) : bool := PrimFloat.ltb y x.

Section Bisect.

Context {P : Type}.
Variable func : float -> P -> float.

Definition bisect_body (param : P) (st : float * float) (i : Z)
    : float * float :=
  let '(xleft, xright) := st in
  let xmid := (0.5 * (xleft + xright))%float in
  Jax.lax_cond (gtb (func xmid param * func xleft param)%float 0%float)
    (fun _ : unit => (xmid, xright))
    (fun _ : unit => (xleft, xmid))
    tt.

Definition bisect_loop (xleft xright : float) (numit : Z) (param : P)
    : float * float :=
  fold_left (bisect_body param) (Jax.range numit) (xleft, xright).

Definition root_find_bisect (xleft xright : float) (numit : Z) (param : P)
    : float :=
  let '(xleft', xright') := bisect_loop xleft xright numit param in
  (0.5 * (xleft' + xright'))%float.

(** The bracket after the first [k] iterations of a loop of [numit]. *)
Definition bisect_prefix (xleft xright : float) (numit : Z) (param : P)
    (k : nat) : float * float :=
  fold_left (bisect_body param) (firstn k (Jax.range numit)) (xleft, xright).

End Bisect.

End F64.

(* ------------------------------------------------------------------ *)
(** ** [softclip] *)

Definition softclip (x a_min a_max : R) : R :=
  let y := Jax.clip x a_min a_max in
  Jax.where_ (Jax.ltb x a_min)
    (a_min + Jax.log (Jax.abs (x - a_min) + 1) * Jax.sign (x - a_min))
    (Jax.where_ (Jax.gtb x a_max)
       (a_max + Jax.log (Jax.abs (x - a_max) + 1) * Jax.sign (x - a_max))
       y).

(** Limits at infinity of a real function, for the statements about the
    tails of [softclip]. *)
Definition tends_to_at_plus_inf (f : R -> R) (l : R) : Prop :=
  forall eps, 0 < eps -> exists M, forall x, M < x -> Rabs (f x - l) < eps.
Definition tends_to_at_minus_inf (f : R -> R) (l : R) : Prop :=
  forall eps, 0 < eps -> exists M, forall x, x < M -> Rabs (f x - l) < eps.
Definition diverges_to_plus_inf (f : R -> R) : Prop :=
  forall B, exists M, forall x, M < x -> B < f x.
Definition diverges_to_minus_inf (f : R -> R) : Prop :=
  forall B, exists M, forall x, x < M -> f x < B.

(* ------------------------------------------------------------------ *)
(** ** Complex numbers *)

Module Cplx.

Record C : Type := mk { re : R; im : R }.

(** Promotion of a float to a complex number *)
Definition of_real (x : R) : C := mk x 0.

Definition add (z w : C) : C := mk (re z + re w) (im z + im w).
Definition sub (z w : C) : C := mk (re z - re w) (im z - im w).
Definition mul (z w : C) : C :=
  mk (re z * re w - im z * im w) (re z * im w + im z * re w).
Definition conj (z : C) : C := mk (re z) (- im z).
Definition abs (z : C) : R := sqrt (re z * re z + im z * im z).

(** The angle of the point [(x, y)], in (-pi, pi] *)
Definition atan2 (y x : R) : R :=
  if Rlt_dec 0 x then atan (y / x)
  else if Rlt_dec x 0 then
    (if Rle_dec 0 y then atan (y / x) + PI else atan (y / x) - PI)
  else if Rlt_dec 0 y then PI / 2
  else if Rlt_dec y 0 then - PI / 2
  else 0.

(** Principal logarithm and sine *)
Definition log (z : C) : C := mk (ln (abs z)) (atan2 (im z) (re z)).
Definition sin (z : C) : C :=
  mk (Rtrigo_def.sin (re z) * cosh (im z)) (cos (re z) * sinh (im z)).

(** [jnp.sum] of a complex array *)
Definition sum (l : list C) : C := fold_left add l (of_real 0).

(** Elementwise binary operation on two arrays of one shape *)
Definition map2 {A B D : Type} (f : A -> B -> D)
    (l1 : list A) (l2 : list B) : list D :=
  map (fun ab => f (fst ab) (snd ab)) (combine l1 l2).

End Cplx.

Declare Scope cplx_scope.
Delimit Scope cplx_scope with C.
Bind Scope cplx_scope with Cplx.C.
Infix "+" := Cplx.add : cplx_scope.
Infix "-" := Cplx.sub : cplx_scope.
Infix "*" := Cplx.mul : cplx_scope.
Notation "# x" := (Cplx.of_real x) (at level 5, format "# x") : cplx_scope.

(* ------------------------------------------------------------------ *)
(** ** [lngamma_complex_e] *)

Definition lanczos_7_c : list R :=
  [ 0.99999999999980993227684700473478;
    676.520368121885098567009190444019;
    -1259.13921672240287047156078755283;
    771.3234287776530788486528258894;
    -176.61502916214059906584551354;
    12.507343278686904814458936853;
    -0.13857109526572011689554707;
    9.984369578019570859563e-6;
    1.50563273514931155834e-7 ].

Definition LogRootTwoPi_ : R := 0.9189385332046727418.

(** [jnp.arange(1, 9)] *)
Definition arange_1_9 : list R := map IZR (Jax.range2 1 9).

Definition lngamma_lanczos_complex (z : Cplx.C) : Cplx.C :=
  let z := (z - #1.0)%C in
  let zk := map (fun k => (z + #k)%C) arange_1_9 in
  let Ag :=
    (#(nth 0 lanczos_7_c 0) +
     Cplx.sum
       (Cplx.map2 (fun r w => (#r * w)%C)
          (Cplx.map2 Rdiv (tl lanczos_7_c)
             (map (fun w => Cplx.abs w ^ 2) zk))
          (map Cplx.conj zk)))%C in
  ((z + #0.5) * Cplx.log (z + #7.5) - (z + #7.5)
   + #LogRootTwoPi_ + Cplx.log Ag)%C.

Definition lnpi : R := 1.14472988584940017414342735135.

Definition lngamma_complex_e (z : Cplx.C) : Cplx.C :=
  Jax.lax_cond (Jax.leb (Cplx.re z) 0.5)
    (fun zz => (#lnpi - Cplx.log (Cplx.sin (#PI * zz))
                - lngamma_lanczos_complex (#1.0 - zz))%C)
    (fun zz => lngamma_lanczos_complex zz)
    z.

(** The Lanczos core as the specification words it: the sum over
    [k = 1..8] written out term by term. *)
Definition lanczos_term (z' : Cplx.C) (k : nat) : Cplx.C :=
  (#(nth k lanczos_7_c 0 / Cplx.abs (z' + #(INR k)) ^ 2)
   * Cplx.conj (z' + #(INR k)))%C.

Fixpoint lanczos_sum (z' : Cplx.C) (k : nat) : Cplx.C :=
  match k with
  | O => #0
  | S k' => (lanczos_sum z' k' + lanczos_term z' k)%C
  end.

Definition LanczosCore_spec (z : Cplx.C) : Cplx.C :=
  let z' := (z - #1)%C in
  let Ag := (#0.99999999999980993227684700473478 + lanczos_sum z' 8)%C in
  ((z' + #0.5) * Cplx.log (z' + #7.5) - (z' + #7.5)
   + #0.9189385332046727418 + Cplx.log Ag)%C.

(* ------------------------------------------------------------------ *)
(** ** Exceptions *)

Inductive exn : Type :=
| ValueError (msg : string)
| TypeError (msg : string).

Inductive result (A : Type) : Type :=
| Ok (a : A)
| Raise (e : exn).
Arguments Ok {A} a.
Arguments Raise {A} e.

Definition bind {A B : Type} (m : result A) (k : A -> result B) : result B :=
  match m with
  | Ok a => k a
  | Raise e => Raise e
  end.

Notation "x <- m ;; k" := (bind m (fun x => k))
  (at level 61, m at next level, right associativity).

(* ------------------------------------------------------------------ *)
(** ** Arrays *)

Module Arr.

(** A one-dimensional array is a list; its shape is its length.  A
    two-dimensional array carries its shape and its entries. *)
Record array2 : Type :=
  mk2 { shape0 : nat; shape1 : nat; at2 : nat -> nat -> R }.

Definition shape_error : exn :=
  TypeError "dot_general requires contracting dimensions to have the same shape".

(** Sum of [f 0 .. f (n-1)] *)
Fixpoint rsum (n : nat) (f : nat -> R) : R :=
  match n with
  | O => 0
  | S n' => rsum n' f + f n'
  end.

(** [jnp.linspace(start, stop, num)] *)
Definition linspace (start stop : R) (num : Z) : list R :=
  map (fun i => start + IZR i * ((stop - start) / IZR (num - 1)))
      (Jax.range num).

(** [jnp.vander(x, N)]: column [j] holds the power [N - 1 - j]. *)
Definition vander (x : list R) (N : Z) : array2 :=
  mk2 (length x) (Z.to_nat N)
      (fun i j => nth i x 0 ^ (Z.to_nat N - 1 - j)).

Definition transpose (a : array2) : array2 :=
  mk2 (shape1 a) (shape0 a) (fun i j => at2 a j i).

(** [jnp.dot] of two matrices, of a matrix and a vector, and of two
    vectors: the contracted dimensions must agree. *)
Definition dot_mm (a b : array2) : result array2 :=
  if Nat.eqb (shape1 a) (shape0 b)
  then Ok (mk2 (shape0 a) (shape1 b)
             (fun i j => rsum (shape1 a) (fun k => at2 a i k * at2 b k j)))
  else Raise shape_error.

Definition dot_mv (a : array2) (v : list R) : result (list R) :=
  if Nat.eqb (shape1 a) (length v)
  then Ok (map (fun i => rsum (shape1 a) (fun k => at2 a i k * nth k v 0))
             (seq 0 (shape0 a)))
  else Raise shape_error.

Definition dot_vv (u v : list R) : result R :=
  if Nat.eqb (length u) (length v)
  then Ok (rsum (length u) (fun k => nth k u 0 * nth k v 0))
  else Raise shape_error.

Definition zeros_like (y : list R) : list R := repeat 0 (length y).

(** Python's [y[a:b]]: a negative bound counts from the end, and both
    bounds are clamped to the array. *)
Definition slice_bound (n i : Z) : Z :=
  if (i <? 0)%Z then Z.max 0 (i + n) else Z.min i n.

Definition slice (y : list R) (a b : Z) : list R :=
  let n := Z.of_nat (length y) in
  let a' := slice_bound n a in
  let b' := slice_bound n b in
  firstn (Z.to_nat (b' - a')) (skipn (Z.to_nat a') y).

(** Replacing the entry at position [i] of a list *)
Fixpoint set_nth (l : list R) (i : nat) (v : R) : list R :=
  match l, i with
  | [], _ => []
  | _ :: t, O => v :: t
  | h :: t, S i' => h :: set_nth t i' v
  end.

(** [jax.ops.index_update(arr, i, v)]: a copy of [arr] with entry [i]
    replaced; a negative [i] counts from the end, and an index outside
    the array leaves the copy unchanged. *)
Definition index_update (arr : list R) (i : Z) (v : R) : list R :=
  let n := Z.of_nat (length arr) in
  let i' := if (i <? 0)%Z then (i + n)%Z else i in
  if ((0 <=? i') && (i' <? n))%Z%bool
  then set_nth arr (Z.to_nat i') v
  else arr.

End Arr.

(* ------------------------------------------------------------------ *)
(** ** [savgol_filter] *)

Definition msg_odd : string := "window_length must be odd".
Definition msg_small : string :=
  "window_length is too small for the polynomials order".
Definition msg_large : string := "window_length is too large for input array".
Definition msg_polyorder_large : string :=
  "polyorder is too large for the window length".
Definition msg_polyorder_small : string := "polyorder must be non-negative".

Section Savgol.

(** [jnp.linalg.solve], whose algorithm is not part of this file. *)
Variable solve : Arr.array2 -> list R -> result (list R).

(** The body of the filter loop: one entry of the output. *)
Definition savgol_body (y c : list R) (window_length : Z)
    (acc : result (list R)) (i : Z) : result (list R) :=
  y_smoothed <- acc ;;
  v <- Arr.dot_vv c
         (Arr.slice y (i - window_length / 2)
                      (i + window_length / 2 + 1)) ;;
  Ok (Arr.index_update y_smoothed i v).

Definition savgol_filter (y : list R) (window_length polyorder : Z)
    : result (list R) :=
  if (window_length mod 2 =? 0)%Z then Raise (ValueError msg_odd)
  else if (window_length <? polyorder + 2)%Z then
    Raise (ValueError msg_small)
  else if (window_length >? Z.of_nat (length y))%Z then
    Raise (ValueError msg_large)
  else if (polyorder >? window_length)%Z then
    Raise (ValueError msg_polyorder_large)
  else if (polyorder <? 1)%Z then
    Raise (ValueError msg_polyorder_small)
  else
    (* Precompute the coefficients *)
    let b := map (fun i => IZR ((-1) ^ i)) (Jax.range (polyorder + 1)) in
    let A := Arr.vander (Arr.linspace (-1) 1 window_length)
                        (polyorder + 1) in
    let AT := Arr.transpose A in
    ATA <- Arr.dot_mm AT A ;;
    ATb <- Arr.dot_mv AT b ;;
    c <- solve ATA ATb ;;
    (* Apply the filter *)
    let y_smoothed := Arr.zeros_like y in
    fold_left (savgol_body y c window_length)
      (Jax.range2 (window_length / 2)
                  (Z.of_nat (length y) - window_length / 2))
      (Ok y_smoothed).

(** The five preconditions the validation names. *)
Definition even_window (window_length : Z) : Prop :=
  (window_length mod 2 = 0)%Z.
Definition window_too_small (window_length polyorder : Z) : Prop :=
  (window_length < polyorder + 2)%Z.
Definition window_too_large (y : list R) (window_length : Z) : Prop :=
  (window_length > Z.of_nat (length y))%Z.
Definition polyorder_too_large (window_length polyorder : Z) : Prop :=
  (polyorder > window_length)%Z.
Definition polyorder_too_small (polyorder : Z) : Prop :=
  (polyorder < 1)%Z.

Definition valid_input (y : list R) (window_length polyorder : Z) : Prop :=
  ~ even_window window_length /\
  ~ window_too_small window_length polyorder /\
  ~ window_too_large y window_length /\
  ~ polyorder_too_large window_length polyorder /\
  ~ polyorder_too_small polyorder.

End Savgol.

(** A solver that returns no coefficients, to run the filter on concrete
    inputs. *)
Definition solve_none (a : Arr.array2) (v : list R) : result (list R) :=
  Ok [].

(* ------------------------------------------------------------------ *)
(** ** Parts of the functions above, by name *)

(** The array [z + jnp.arange(1, 9)] of [lngamma_lanczos_complex], [z]
    being shifted by one as there. *)
Definition lanczos_shifted (z : Cplx.C) : list Cplx.C :=
  map (fun k => (z - #1.0 + #k)%C) arange_1_9.

(** The summands
    [lanczos_7_c[1:] / jnp.abs(z+jnp.arange(1,9))**2 * jnp.conj(z+jnp.arange(1,9))]. *)
Definition lanczos_terms (z : Cplx.C) : list Cplx.C :=
  Cplx.map2 (fun r w => (#r * w)%C)
    (Cplx.map2 Rdiv (tl lanczos_7_c)
       (map (fun w => Cplx.abs w ^ 2) (lanczos_shifted z)))
    (map Cplx.conj (lanczos_shifted z)).

(** The argument at which the branch taken by [lngamma_complex_e]
    evaluates the Lanczos core: [1.0 - zz] in the first branch, [zz] in
    the second. *)
Definition lngamma_core_argument (z : Cplx.C) : Cplx.C :=
  Jax.lax_cond (Jax.leb (Cplx.re z) 0.5)
    (fun zz => (#1.0 - zz)%C)
    (fun zz => zz)
    z.

(** The part of [savgol_filter] under [# Apply the filter], for given
    coefficients [c]. *)
Definition savgol_apply (y c : list R) (window_length : Z)
    : result (list R) :=
  let y_smoothed := Arr.zeros_like y in
  fold_left (savgol_body y c window_length)
    (Jax.range2 (window_length / 2)
                (Z.of_nat (length y) - window_length / 2))
    (Ok y_smoothed).

(* ================================================================== *)
(** * Properties *)

(** ** Comparisons and ranges *)

Lemma gtb_true x y : Jax.gtb x y = true <-> x > y.
Proof. unfold Jax.gtb. destruct (Rgt_dec x y); split; intros; lra || easy. Qed.

Lemma gtb_false x y : Jax.gtb x y = false <-> x <= y.
Proof. unfold Jax.gtb. destruct (Rgt_dec x y); split; intros; lra || easy. Qed.

Lemma ltb_true x y : Jax.ltb x y = true <-> x < y.
Proof. unfold Jax.ltb. destruct (Rlt_dec x y); split; intros; lra || easy. Qed.

Lemma ltb_false x y : Jax.ltb x y = false <-> y <= x.
Proof. unfold Jax.ltb. destruct (Rlt_dec x y); split; intros; lra || easy. Qed.

Lemma leb_true x y : Jax.leb x y = true <-> x <= y.
Proof. unfold Jax.leb. destruct (Rle_dec x y); split; intros; lra || easy. Qed.

Lemma leb_false x y : Jax.leb x y = false <-> y < x.
Proof. unfold Jax.leb. destruct (Rle_dec x y); split; intros; lra || easy. Qed.

Lemma range2_length a b : length (Jax.range2 a b) = Z.to_nat (b - a).
Proof. unfold Jax.range2. now rewrite length_map, length_seq. Qed.

Lemma range_length n : length (Jax.range n) = Z.to_nat n.
Proof. unfold Jax.range. rewrite range2_length. f_equal. lia. Qed.

Lemma range2_In a b i : In i (Jax.range2 a b) <-> (a <= i < b)%Z.
Proof.
  unfold Jax.range2. rewrite in_map_iff. split.
  - intros (k & <- & Hk). apply in_seq in Hk. lia.
  - intros H. exists (Z.to_nat (i - a)). split; [lia|].
    apply in_seq. lia.
Qed.

(** ** Bisection *)

Section BisectFacts.

Context {P : Type}.
Variable func : R -> P -> R.
Variable param : P.

(** One pass of the loop body is the step of the specification: the
    source's [0.5 * (a + b)] is the midpoint [(a + b) / 2]. *)
Lemma bisect_body_spec_step st i :
  bisect_body func param st i = spec_step func param st.
Proof.
  destruct st as [l r]. unfold bisect_body, spec_step, Jax.lax_cond, Jax.gtb.
  replace (0.5 * (l + r)) with ((l + r) / 2) by lra.
  now destruct (Rgt_dec _ _).
Qed.

(** The loop index is unused, so only the number of passes matters. *)
Lemma bisect_fold_iter (l : list Z) st :
  fold_left (bisect_body func param) l st
  = Nat.iter (length l) (spec_step func param) st.
Proof.
  revert st. induction l as [|i l IH]; intros st; [reflexivity|].
  cbn [fold_left length]. rewrite IH, Nat.iter_succ_r.
  now rewrite bisect_body_spec_step.
Qed.

Lemma bisect_loop_iter xleft xright numit :
  bisect_loop func xleft xright numit param
  = Nat.iter (Z.to_nat numit) (spec_step func param) (xleft, xright).
Proof.
  unfold bisect_loop. now rewrite bisect_fold_iter, range_length.
Qed.

Lemma bisect_prefix_iter xleft xright numit k :
  (k <= Z.to_nat numit)%nat ->
  bisect_prefix func xleft xright numit param k
  = Nat.iter k (spec_step func param) (xleft, xright).
Proof.
  intros Hk. unfold bisect_prefix.
  rewrite bisect_fold_iter, length_firstn, range_length.
  f_equal. lia.
Qed.

(** A step halves the width and keeps an ordered bracket ordered and
    inside the bracket it started from. *)
Lemma spec_step_width l r :
  snd (spec_step func param (l, r)) - fst (spec_step func param (l, r))
  = (r - l) / 2.
Proof.
  unfold spec_step. destruct (Rgt_dec _ _); cbn [fst snd]; lra.
Qed.

Lemma spec_step_inside l r :
  l <= r ->
  l <= fst (spec_step func param (l, r)) /\
  fst (spec_step func param (l, r)) <= snd (spec_step func param (l, r)) /\
  snd (spec_step func param (l, r)) <= r.
Proof.
  intros H. unfold spec_step. destruct (Rgt_dec _ _); cbn [fst snd]; lra.
Qed.

Lemma iter_width n l r :
  snd (Nat.iter n (spec_step func param) (l, r))
  - fst (Nat.iter n (spec_step func param) (l, r))
  = (r - l) / 2 ^ n.
Proof.
  induction n as [|n IH].
  - rewrite pow_O. cbn. field.
  - rewrite <- tech_pow_Rmult, Nat.iter_succ.
    destruct (Nat.iter n (spec_step func param) (l, r)) as [l' r'] eqn:E.
    rewrite spec_step_width. cbn [fst snd] in IH. rewrite IH.
    field. apply pow_nonzero. lra.
Qed.

Lemma iter_inside n l r :
  l <= r ->
  l <= fst (Nat.iter n (spec_step func param) (l, r)) /\
  fst (Nat.iter n (spec_step func param) (l, r))
  <= snd (Nat.iter n (spec_step func param) (l, r)) /\
  snd (Nat.iter n (spec_step func param) (l, r)) <= r.
Proof.
  intros H. induction n as [|n IH]; [cbn; lra|].
  rewrite Nat.iter_succ.
  destruct (Nat.iter n (spec_step func param) (l, r)) as [l' r'] eqn:E.
  cbn [fst snd] in IH.
  pose proof (spec_step_inside l' r') as S. lra.
Qed.

End BisectFacts.

(** C1.  [root_find_bisect] runs the step of the specification exactly
    [numit] times (midpoint; move the left end to it when the function
    has one sign at the midpoint and at the left end, the right end
    otherwise) and returns the midpoint of the bracket it ends with;
    nothing but [numit] decides the number of steps. *)
Theorem root_find_bisect_spec {P : Type} (func : R -> P -> R)
    (xleft xright : R) (param : P) (numit : nat) :
  root_find_bisect func xleft xright (Z.of_nat numit) param
  = spec_bisect func xleft xright numit param.
Proof.
  unfold root_find_bisect, spec_bisect.
  rewrite bisect_loop_iter, Nat2Z.id.
  destruct (Nat.iter numit (spec_step func param) (xleft, xright)) as [l r].
  lra.
Qed.

(** C4.  After [numit] iterations the bracket is
    [(xright0 - xleft0) / 2 ^ numit] wide, whatever [func] is. *)
Theorem bisect_width {P : Type} (func : R -> P -> R)
    (xleft0 xright0 : R) (param : P) (numit : nat) :
  snd (bisect_loop func xleft0 xright0 (Z.of_nat numit) param)
  - fst (bisect_loop func xleft0 xright0 (Z.of_nat numit) param)
  = (xright0 - xleft0) / 2 ^ numit.
Proof.
  rewrite bisect_loop_iter, Nat2Z.id. apply iter_width.
Qed.







(** ** Soft clip *)

Section SoftclipFacts.

Variables a_min a_max : R.

(** The three regions of the definition. *)
Lemma softclip_low x :
  x < a_min -> softclip x a_min a_max = a_min - ln (1 + (a_min - x)).
Proof.
  intros H. unfold softclip, Jax.where_.
  apply ltb_true in H as E. rewrite E.
  unfold Jax.log, Jax.abs, Jax.sign.
  destruct (Rlt_dec 0 (x - a_min)); [lra|].
  destruct (Rlt_dec (x - a_min) 0); [|lra].
  rewrite Rabs_left by lra.
  replace (- (x - a_min) + 1) with (1 + (a_min - x)) by lra. lra.
Qed.

Lemma softclip_mid x :
  a_min <= x <= a_max -> softclip x a_min a_max = x.
Proof.
  intros [H1 H2]. unfold softclip, Jax.where_.
  apply ltb_false in H1 as E1. rewrite E1.
  apply gtb_false in H2 as E2. rewrite E2.
  unfold Jax.clip, Jax.minimum, Jax.maximum.
  rewrite Rmax_left by lra. now rewrite Rmin_left by lra.
Qed.

Lemma softclip_high x :
  a_min <= x -> a_max < x ->
  softclip x a_min a_max = a_max + ln (1 + (x - a_max)).
Proof.
  intros H1 H2. unfold softclip, Jax.where_.
  apply ltb_false in H1 as E1. rewrite E1.
  assert (E : Jax.gtb x a_max = true) by (apply gtb_true; lra).
  rewrite E. unfold Jax.log, Jax.abs, Jax.sign.
  destruct (Rlt_dec 0 (x - a_max)); [|lra].
  rewrite Rabs_right by lra.
  replace (x - a_max + 1) with (1 + (x - a_max)) by lra. lra.
Qed.

Lemma ln_1_plus_pos d : 0 < d -> 0 < ln (1 + d).
Proof.
  intros H. rewrite <- ln_1. apply ln_increasing; lra.
Qed.

(** Below the range the value is below [a_min], above it above
    [a_max]: the tails are not flat. *)
Lemma softclip_below x : x < a_min -> softclip x a_min a_max < a_min.
Proof.
  intros H. rewrite softclip_low by exact H.
  pose proof (ln_1_plus_pos (a_min - x)). lra.
Qed.

Lemma softclip_above x :
  a_min <= a_max -> a_max < x -> a_max < softclip x a_min a_max.
Proof.
  intros H0 H. rewrite softclip_high by lra.
  pose proof (ln_1_plus_pos (x - a_max)). lra.
Qed.

Lemma softclip_ge_a_min x :
  a_min <= a_max -> a_min <= x -> a_min <= softclip x a_min a_max.
Proof.
  intros H0 H. destruct (Rle_lt_dec x a_max) as [Hx|Hx].
  - rewrite softclip_mid; lra.
  - pose proof (softclip_above x H0 Hx). lra.
Qed.

Lemma softclip_strictly_increasing x y :
  a_min <= a_max -> x < y ->
  softclip x a_min a_max < softclip y a_min a_max.
Proof.
  intros H0 Hxy.
  destruct (Rlt_le_dec x a_min) as [Hx|Hx].
  - destruct (Rlt_le_dec y a_min) as [Hy|Hy].
    + rewrite !softclip_low by assumption.
      assert (ln (1 + (a_min - y)) < ln (1 + (a_min - x)))
        by (apply ln_increasing; lra).
      lra.
    + pose proof (softclip_below x Hx).
      pose proof (softclip_ge_a_min y H0 Hy). lra.
  - destruct (Rle_lt_dec y a_max) as [Hy|Hy].
    + rewrite !softclip_mid; lra.
    + destruct (Rle_lt_dec x a_max) as [Hx'|Hx'].
      * rewrite (softclip_mid x) by lra.
        pose proof (softclip_above y H0 Hy). lra.
      * rewrite !softclip_high by lra.
        assert (ln (1 + (x - a_max)) < ln (1 + (y - a_max)))
          by (apply ln_increasing; lra).
        lra.
Qed.

Lemma softclip_diverges_plus :
  a_min <= a_max -> diverges_to_plus_inf (fun x => softclip x a_min a_max).
Proof.
  intros H0 B. exists (a_max + exp (B - a_max)). intros x Hx.
  pose proof (exp_pos (B - a_max)) as He.
  rewrite softclip_high by lra.
  assert (ln (exp (B - a_max)) < ln (1 + (x - a_max)))
    by (apply ln_increasing; lra).
  rewrite ln_exp in *. lra.
Qed.

Lemma softclip_diverges_minus :
  diverges_to_minus_inf (fun x => softclip x a_min a_max).
Proof.
  intros B. exists (a_min - exp (a_min - B)). intros x Hx.
  pose proof (exp_pos (a_min - B)) as He.
  rewrite softclip_low by lra.
  assert (ln (exp (a_min - B)) < ln (1 + (a_min - x)))
    by (apply ln_increasing; lra).
  rewrite ln_exp in *. lra.
Qed.

End SoftclipFacts.

(** A function that diverges has no finite limit. *)
Lemma diverges_minus_no_limit (f : R -> R) (l : R) :
  diverges_to_minus_inf f -> ~ tends_to_at_minus_inf f l.
Proof.
  intros D T.
  destruct (T 1 Rlt_0_1) as [M1 H1]. destruct (D (l - 1)) as [M2 H2].
  pose proof (Rmin_l M1 M2). pose proof (Rmin_r M1 M2).
  specialize (H1 (Rmin M1 M2 - 1)). specialize (H2 (Rmin M1 M2 - 1)).
  assert (A : Rabs (f (Rmin M1 M2 - 1) - l) < 1) by (apply H1; lra).
  apply Rabs_def2 in A. assert (f (Rmin M1 M2 - 1) < l - 1) by (apply H2; lra).
  lra.
Qed.

Lemma diverges_plus_no_limit (f : R -> R) (l : R) :
  diverges_to_plus_inf f -> ~ tends_to_at_plus_inf f l.
Proof.
  intros D T.
  destruct (T 1 Rlt_0_1) as [M1 H1]. destruct (D (l + 1)) as [M2 H2].
  pose proof (Rmax_l M1 M2). pose proof (Rmax_r M1 M2).
  specialize (H1 (Rmax M1 M2 + 1)). specialize (H2 (Rmax M1 M2 + 1)).
  assert (A : Rabs (f (Rmax M1 M2 + 1) - l) < 1) by (apply H1; lra).
  apply Rabs_def2 in A. assert (l + 1 < f (Rmax M1 M2 + 1)) by (apply H2; lra).
  lra.
Qed.

(** C6, as the code has it, in exact arithmetic.  With the floats read
    as real numbers and [a_min < a_max], the soft clip is non-decreasing,
    and strictly increasing everywhere, so in particular outside
    [[a_min, a_max]] where its values leave the range; there it is
    [a_min - ln(1 + a_min - x)] below [a_min] and
    [a_max + ln(1 + x - a_max)] above [a_max]: its tails are logarithmic
    and unbounded, it tends to minus infinity at minus infinity and to
    plus infinity at plus infinity. *)
Theorem softclip_monotone_unbounded (a_min a_max : R) :
  a_min < a_max ->
  (forall x y, x <= y -> softclip x a_min a_max <= softclip y a_min a_max) /\
  (forall x y, x < y -> softclip x a_min a_max < softclip y a_min a_max) /\
  (forall x, x < a_min ->
     softclip x a_min a_max = a_min - ln (1 + (a_min - x)) /\
     softclip x a_min a_max < a_min) /\
  (forall x, a_max < x ->
     softclip x a_min a_max = a_max + ln (1 + (x - a_max)) /\
     a_max < softclip x a_min a_max) /\
  diverges_to_minus_inf (fun x => softclip x a_min a_max) /\
  diverges_to_plus_inf (fun x => softclip x a_min a_max).
Proof.
  intros H.
  split; [|split; [|split; [|split; [|split]]]].
  - intros x y [Hxy| ->]; [|lra].
    pose proof (softclip_strictly_increasing a_min a_max x y). lra.
  - intros x y Hxy. apply softclip_strictly_increasing; lra.
  - intros x Hx. split; [now apply softclip_low|now apply softclip_below].
  - intros x Hx. split; [apply softclip_high; lra|apply softclip_above; lra].
  - apply softclip_diverges_minus.
  - apply softclip_diverges_plus. lra.
Qed.

Lemma softclip_monotone_unbounded_witness :
  (forall x y, x <= y -> softclip x 0 1 <= softclip y 0 1) /\
  (forall x y, x < y -> softclip x 0 1 < softclip y 0 1) /\
  (forall x, x < 0 ->
     softclip x 0 1 = 0 - ln (1 + (0 - x)) /\ softclip x 0 1 < 0) /\
  (forall x, 1 < x ->
     softclip x 0 1 = 1 + ln (1 + (x - 1)) /\ 1 < softclip x 0 1) /\
  diverges_to_minus_inf (fun x => softclip x 0 1) /\
  diverges_to_plus_inf (fun x => softclip x 0 1).
Proof.
  apply (softclip_monotone_unbounded 0 1). lra.
Defined.

(** C6, as stated, fails, already in exact arithmetic: with the bounds
    0 and 1 the soft clip tends neither to 0 at minus infinity nor to 1
    at plus infinity. *)
Lemma softclip_tails_not_bounds :
  (0 < 1) /\
  ~ tends_to_at_minus_inf (fun x => softclip x 0 1) 0 /\
  ~ tends_to_at_plus_inf (fun x => softclip x 0 1) 1.
Proof.
  split; [lra|]. split.
  - apply diverges_minus_no_limit, softclip_diverges_minus.
  - apply diverges_plus_no_limit, softclip_diverges_plus. lra.
Qed.

(** C9.  Between the bounds the soft clip is the identity. *)
Theorem softclip_identity_inside (x a_min a_max : R) :
  a_min <= a_max ->
  a_min <= x <= a_max ->
  softclip x a_min a_max = x.
Proof.
  intros _ H. now apply softclip_mid.
Qed.

Lemma softclip_identity_inside_witness : softclip 0.25 0 1 = 0.25.
Proof.
  apply (softclip_identity_inside 0.25 0 1); lra.
Defined.

(** ** Complex log-gamma *)

Lemma IZR_succ_of_nat k : IZR (1 + Z.of_nat k) = INR (S k).
Proof. rewrite S_INR, plus_IZR, <- INR_IZR_INZ. lra. Qed.

Lemma arange_1_9_INR : arange_1_9 = map INR [1; 2; 3; 4; 5; 6; 7; 8]%nat.
Proof.
  unfold arange_1_9, Jax.range2.
  change (Z.to_nat (9 - 1)) with 8%nat. cbn [seq map].
  now rewrite !IZR_succ_of_nat.
Qed.

Lemma of_real_one : Cplx.of_real 1.0 = Cplx.of_real 1.
Proof. f_equal. lra. Qed.

(** The vectorised Lanczos sum of the source is the sum over
    [k = 1..8] of the specification, term by term. *)
Lemma lngamma_lanczos_complex_unfold z :
  lngamma_lanczos_complex z = LanczosCore_spec z.
Proof.
  unfold lngamma_lanczos_complex, LanczosCore_spec.
  rewrite of_real_one, arange_1_9_INR.
  set (z' := (z - #1)%C). unfold LogRootTwoPi_.
  cbn [map lanczos_7_c tl nth Cplx.map2 combine fst snd Cplx.sum fold_left
       lanczos_sum].
  unfold lanczos_term. cbn [nth lanczos_7_c].
  reflexivity.
Qed.

(** C2.  [lngamma_complex_e] selects by [real(z) <= 0.5]: the reflection
    formula [lnpi - ln(sin(pi z)) - LanczosCore(1 - z)] when it holds,
    [LanczosCore(z)] when [real(z) > 0.5]; the result is one of the two
    branches, and [lnpi] is the constant of the source. *)
Theorem lngamma_complex_e_branch (z : Cplx.C) :
  (Cplx.re z <= 0.5 ->
   lngamma_complex_e z
   = (#lnpi - Cplx.log (Cplx.sin (#PI * z)) - LanczosCore_spec (#1 - z))%C) /\
  (Cplx.re z > 0.5 -> lngamma_complex_e z = LanczosCore_spec z) /\
  lnpi = 1.14472988584940017414342735135.
Proof.
  unfold lngamma_complex_e, Jax.lax_cond. repeat split.
  - intros H. apply leb_true in H as ->.
    now rewrite lngamma_lanczos_complex_unfold, of_real_one.
  - intros H. assert (E : Jax.leb (Cplx.re z) 0.5 = false)
      by (apply leb_false; lra).
    rewrite E. apply lngamma_lanczos_complex_unfold.
Qed.

(** Both branches are taken: at [0.3 + 0.2 i] the reflection, at
    [2 + 0 i] the direct one. *)
Lemma lngamma_complex_e_branch_witness :
  lngamma_complex_e (Cplx.mk 0.3 0.2)
  = (#lnpi - Cplx.log (Cplx.sin (#PI * Cplx.mk 0.3 0.2))
     - LanczosCore_spec (#1 - Cplx.mk 0.3 0.2))%C /\
  lngamma_complex_e (Cplx.mk 2 0) = LanczosCore_spec (Cplx.mk 2 0).
Proof.
  split.
  - apply (proj1 (lngamma_complex_e_branch (Cplx.mk 0.3 0.2))).
    cbn [Cplx.re]. lra.
  - apply (proj1 (proj2 (lngamma_complex_e_branch (Cplx.mk 2 0)))).
    cbn [Cplx.re]. lra.
Defined.

(** C3.  The Lanczos core shifts [z' = z - 1], forms
    [Ag = g0 + sum over k = 1..8 of c_k / |z'+k|^2 * conj(z'+k)] and
    returns [(z'+0.5) ln(z'+7.5) - (z'+7.5) + LogRootTwoPi + ln(Ag)];
    the table holds nine constants, of which [g0] is the first. *)
Theorem lngamma_lanczos_complex_formula (z : Cplx.C) :
  lngamma_lanczos_complex z = LanczosCore_spec z /\
  length lanczos_7_c = 9%nat /\
  nth 0 lanczos_7_c 0 = 0.99999999999980993227684700473478 /\
  LogRootTwoPi_ = 0.9189385332046727418.
Proof.
  split; [apply lngamma_lanczos_complex_unfold|].
  repeat split.
Qed.

(** ** Savitzky-Golay filter: validation *)

Section SavgolFacts.

Variable solve : Arr.array2 -> list R -> result (list R).

Lemma savgol_even y w p :
  even_window w -> savgol_filter solve y w p = Raise (ValueError msg_odd).
Proof.
  unfold even_window, savgol_filter. intros H.
  now apply Z.eqb_eq in H as ->.
Qed.

Lemma savgol_small y w p :
  ~ even_window w -> window_too_small w p ->
  savgol_filter solve y w p = Raise (ValueError msg_small).
Proof.
  unfold even_window, window_too_small, savgol_filter. intros H1 H2.
  apply Z.eqb_neq in H1 as ->. now apply Z.ltb_lt in H2 as ->.
Qed.

Lemma savgol_large y w p :
  ~ even_window w -> ~ window_too_small w p -> window_too_large y w ->
  savgol_filter solve y w p = Raise (ValueError msg_large).
Proof.
  unfold even_window, window_too_small, window_too_large, savgol_filter.
  intros H1 H2 H3.
  apply Z.eqb_neq in H1 as ->. apply Z.ltb_nlt in H2 as ->.
  now apply Z.gtb_gt in H3 as ->.
Qed.

Lemma savgol_polyorder_small y w p :
  ~ even_window w -> ~ window_too_small w p -> ~ window_too_large y w ->
  polyorder_too_small p ->
  savgol_filter solve y w p = Raise (ValueError msg_polyorder_small).
Proof.
  unfold even_window, window_too_small, window_too_large,
    polyorder_too_small, savgol_filter.
  intros H1 H2 H3 H4.
  apply Z.eqb_neq in H1 as ->. apply Z.ltb_nlt in H2 as E2. rewrite E2.
  destruct (Z.gtb_spec w (Z.of_nat (length y))); [lia|].
  destruct (Z.gtb_spec p w); [lia|].
  now apply Z.ltb_lt in H4 as ->.
Qed.

(** A polynomial order above the window length makes the window too
    small for it. *)
Lemma polyorder_too_large_small w p :
  polyorder_too_large w p -> window_too_small w p.
Proof. unfold polyorder_too_large, window_too_small. lia. Qed.

(** Any violated precondition ends the call in a [ValueError]. *)
Lemma savgol_invalid y w p :
  even_window w \/ window_too_small w p \/ window_too_large y w \/
  polyorder_too_large w p \/ polyorder_too_small p ->
  exists msg, savgol_filter solve y w p = Raise (ValueError msg).
Proof.
  intros H.
  destruct (Z.eq_dec (w mod 2) 0) as [E|E];
    [eexists; now apply savgol_even|].
  destruct (Z_lt_dec w (p + 2)) as [S|S];
    [eexists; now apply savgol_small|].
  destruct (Z_gt_dec w (Z.of_nat (length y))) as [L|L];
    [eexists; now apply savgol_large|].
  destruct H as [H|[H|[H|[H|H]]]]; try contradiction.
  - apply polyorder_too_large_small in H. contradiction.
  - eexists. now apply savgol_polyorder_small.
Qed.

(** The failure for a polynomial order above the window length is
    never the outcome of a call. *)
Lemma savgol_polyorder_large_unreachable y w p :
  savgol_filter solve y w p <> Raise (ValueError msg_polyorder_large).
Proof.
  unfold savgol_filter.
  destruct (Z.eqb_spec (w mod 2) 0); [discriminate|].
  destruct (Z.ltb_spec w (p + 2)); [discriminate|].
  destruct (Z.gtb_spec w (Z.of_nat (length y))); [discriminate|].
  destruct (Z.gtb_spec p w); [lia|].
  destruct (Z.ltb_spec p 1); [discriminate|].
  unfold Arr.dot_mm, Arr.dot_mv, Arr.transpose, Arr.vander.
  cbn [Arr.shape0 Arr.shape1]. rewrite Nat.eqb_refl. cbn [bind].
  unfold Arr.linspace. rewrite !length_map, !range_length.
  destruct (Nat.eqb_spec (Z.to_nat w) (Z.to_nat (p + 1))); [lia|].
  discriminate.
Qed.

(** ** Savitzky-Golay filter: the coefficients *)

(** With valid parameters the design matrix [A] has [window_length]
    rows and [polyorder + 1] columns, so [AT] has [window_length]
    columns while [b] has [polyorder + 1 < window_length] entries: the
    product [jnp.dot(AT, b)] is refused. *)
Lemma savgol_valid_raises y w p :
  valid_input y w p ->
  savgol_filter solve y w p = Raise Arr.shape_error.
Proof.
  unfold valid_input, even_window, window_too_small, window_too_large,
    polyorder_too_large, polyorder_too_small, savgol_filter.
  intros (H1 & H2 & H3 & H4 & H5).
  destruct (Z.eqb_spec (w mod 2) 0); [tauto || lia|].
  destruct (Z.ltb_spec w (p + 2)); [tauto || lia|].
  destruct (Z.gtb_spec w (Z.of_nat (length y))); [tauto || lia|].
  destruct (Z.gtb_spec p w); [tauto || lia|].
  destruct (Z.ltb_spec p 1); [tauto || lia|].
  unfold Arr.dot_mm, Arr.dot_mv, Arr.transpose, Arr.vander.
  cbn [Arr.shape0 Arr.shape1]. rewrite Nat.eqb_refl. cbn [bind].
  unfold Arr.linspace. rewrite !length_map, !range_length.
  destruct (Nat.eqb_spec (Z.to_nat w) (Z.to_nat (p + 1))); [lia|].
  reflexivity.
Qed.

(** No call returns an array. *)
Lemma savgol_never_returns y w p out :
  savgol_filter solve y w p <> Ok out.
Proof.
  destruct (Z.eq_dec (w mod 2) 0) as [E|E];
    [rewrite savgol_even by exact E; discriminate|].
  destruct (Z_lt_dec w (p + 2)) as [S|S];
    [rewrite savgol_small by assumption; discriminate|].
  destruct (Z_gt_dec w (Z.of_nat (length y))) as [L|L];
    [rewrite savgol_large by assumption; discriminate|].
  destruct (Z_lt_dec p 1) as [Q|Q];
    [rewrite savgol_polyorder_small by assumption; discriminate|].
  rewrite savgol_valid_raises; [discriminate|].
  unfold valid_input, polyorder_too_large, window_too_small in *.
  repeat split; try assumption. lia.
Qed.

End SavgolFacts.

(** ** Savitzky-Golay filter: the loop taken by itself *)

Lemma set_nth_length l i v : length (Arr.set_nth l i v) = length l.
Proof.
  revert i. induction l as [|h t IH]; intros [|i]; cbn; auto.
Qed.

Lemma set_nth_other l i j v :
  i <> j -> nth j (Arr.set_nth l i v) 0 = nth j l 0.
Proof.
  revert i j.
  induction l as [|h t IH]; intros [|i] [|j] H; cbn;
    try reflexivity; try contradiction.
  apply IH. congruence.
Qed.

Lemma index_update_length arr i v :
  length (Arr.index_update arr i v) = length arr.
Proof.
  unfold Arr.index_update. destruct (_ && _)%bool; auto using set_nth_length.
Qed.

Lemma index_update_other arr i j v :
  (0 <= i)%Z -> Z.of_nat j <> i ->
  nth j (Arr.index_update arr i v) 0 = nth j arr 0.
Proof.
  intros H0 H. unfold Arr.index_update.
  destruct (Z.ltb_spec i 0); [lia|].
  destruct (_ && _)%bool; [|reflexivity].
  apply set_nth_other. lia.
Qed.

Lemma savgol_loop_raise y c w l e :
  fold_left (savgol_body y c w) l (Raise e) = Raise e.
Proof. induction l as [|i l IH]; cbn; auto. Qed.

(** Every pass of the loop writes the entry of its own index, so a loop
    over indices between [lo] and [hi] that completes has kept the
    length and every entry outside that range. *)
Lemma savgol_loop_frame y c w lo hi l ys out :
  (0 <= lo)%Z ->
  Forall (fun i => (lo <= i < hi)%Z) l ->
  fold_left (savgol_body y c w) l (Ok ys) = Ok out ->
  length out = length ys /\
  forall j, (Z.of_nat j < lo \/ hi <= Z.of_nat j)%Z ->
            nth j out 0 = nth j ys 0.
Proof.
  intros Hlo Hl. revert ys. induction Hl as [|i l Hi Hl IH]; intros ys.
  - cbn. intros [= <-]. auto.
  - cbn [fold_left]. unfold savgol_body at 2. cbn [bind].
    destruct (Arr.dot_vv c _) as [v|e]; cbn [bind].
    + intros H. apply IH in H as [L F]. split.
      * now rewrite L, index_update_length.
      * intros j Hj. rewrite F by exact Hj.
        apply index_update_other; lia.
    + rewrite savgol_loop_raise. discriminate.
Qed.

(** The loop of [savgol_filter], started on the zero array: were it to
    complete, the output would have the length of [y] and zeros in its
    first and last [window_length // 2] entries. *)
Lemma savgol_loop_edges y c w out :
  (0 <= w)%Z ->
  fold_left (savgol_body y c w)
    (Jax.range2 (w / 2) (Z.of_nat (length y) - w / 2))
    (Ok (Arr.zeros_like y)) = Ok out ->
  length out = length y /\
  forall j, (Z.of_nat j < w / 2 \/
             Z.of_nat (length y) - w / 2 <= Z.of_nat j)%Z ->
            nth j out 0 = 0.
Proof.
  intros Hw H.
  apply (savgol_loop_frame y c w (w / 2) (Z.of_nat (length y) - w / 2))
    in H as [L F].
  - unfold Arr.zeros_like in *. rewrite repeat_length in L. split; [exact L|].
    intros j Hj. rewrite F by exact Hj. apply nth_repeat.
  - apply Z.div_pos; lia.
  - apply Forall_forall. intros i Hi. now apply range2_In in Hi.
Qed.

(** ** Savitzky-Golay filter: the claims *)

(** C7, as the code has it.  The parameters are checked before anything
    is computed, in the order: even window, window shorter than
    [polyorder + 2], window longer than the input, [polyorder < 1]; the
    first check that fails raises its own [ValueError], whatever the
    solver.  Every input that violates one of the five preconditions is
    refused with a [ValueError], and the messages differ from one
    another.  A window of 4 raises the even-window failure, and a window
    of 5 with order 5 the window-too-small failure. *)
Theorem savgol_validation (solve : Arr.array2 -> list R -> result (list R))
    (y : list R) (w p : Z) :
  (even_window w ->
   savgol_filter solve y w p = Raise (ValueError msg_odd)) /\
  (~ even_window w -> window_too_small w p ->
   savgol_filter solve y w p = Raise (ValueError msg_small)) /\
  (~ even_window w -> ~ window_too_small w p -> window_too_large y w ->
   savgol_filter solve y w p = Raise (ValueError msg_large)) /\
  (~ even_window w -> ~ window_too_small w p -> ~ window_too_large y w ->
   polyorder_too_small p ->
   savgol_filter solve y w p = Raise (ValueError msg_polyorder_small)) /\
  (even_window w \/ window_too_small w p \/ window_too_large y w \/
   polyorder_too_large w p \/ polyorder_too_small p ->
   exists msg, savgol_filter solve y w p = Raise (ValueError msg)) /\
  NoDup [msg_odd; msg_small; msg_large; msg_polyorder_large;
         msg_polyorder_small] /\
  savgol_filter solve y 4 p = Raise (ValueError msg_odd) /\
  savgol_filter solve y 5 5 = Raise (ValueError msg_small).
Proof.
  split; [apply savgol_even|].
  split; [apply savgol_small|].
  split; [apply savgol_large|].
  split; [apply savgol_polyorder_small|].
  split; [apply savgol_invalid|].
  split; [|split; reflexivity].
  repeat constructor; cbn; intuition discriminate.
Qed.

(** C7, as stated, fails.  With a window of 3 and order 5 the order is
    larger than the window, yet the failure raised is the one for a
    window too small, not the one for the order; with a window of 4 and
    order 5 the window is too small for the order, yet the failure
    raised is the one for an even window. *)
Lemma savgol_not_each_violation_signalled :
  (polyorder_too_large 3 5 /\
   savgol_filter solve_none (repeat 0 9) 3 5 = Raise (ValueError msg_small) /\
   savgol_filter solve_none (repeat 0 9) 3 5
   <> Raise (ValueError msg_polyorder_large)) /\
  (window_too_small 4 5 /\
   savgol_filter solve_none (repeat 0 9) 4 5 = Raise (ValueError msg_odd) /\
   savgol_filter solve_none (repeat 0 9) 4 5 <> Raise (ValueError msg_small)).
Proof.
  unfold polyorder_too_large, window_too_small.
  repeat split; try lia; discriminate.
Qed.

(** C8.  On the valid input [y = [1; 2; 3; 4; 5]], [window_length = 3],
    [polyorder = 1] the call returns no array: it stops at
    [jnp.dot(AT, b)], where [AT] has three columns and [b] two entries. *)
Theorem savgol_valid_call_fails
    (solve : Arr.array2 -> list R -> result (list R)) :
  valid_input [1; 2; 3; 4; 5] 3 1 /\
  savgol_filter solve [1; 2; 3; 4; 5] 3 1 = Raise Arr.shape_error.
Proof.
  assert (V : valid_input [1; 2; 3; 4; 5] 3 1).
  { unfold valid_input, even_window, window_too_small, window_too_large,
      polyorder_too_large, polyorder_too_small.
    cbn. repeat split; lia. }
  split; [exact V|]. now apply savgol_valid_raises.
Qed.

(* ================================================================== *)
(** * Further properties *)

(** ** Bisection: what the bracket keeps *)

Section BisectMore.

Context {P : Type}.
Variable func : R -> P -> R.
Variable param : P.

Lemma sign_transfer a b c : a * b > 0 -> b * c <= 0 -> a * c <= 0.
Proof.
  intros H1 H2.
  destruct (Rlt_le_dec 0 b) as [Hb|Hb].
  - destruct (Rle_lt_dec a 0) as [Ha|Ha]; [exfalso; nra|].
    destruct (Rle_lt_dec c 0) as [Hc|Hc]; nra.
  - destruct (Rle_lt_dec 0 a) as [Ha|Ha]; [exfalso; nra|].
    destruct (Rle_lt_dec 0 c) as [Hc|Hc]; nra.
Qed.

(** A step keeps a sign change across the bracket. *)
Lemma spec_step_sign l r :
  func l param * func r param <= 0 ->
  func (fst (spec_step func param (l, r))) param
  * func (snd (spec_step func param (l, r))) param <= 0.
Proof.
  intros H. unfold spec_step.
  destruct (Rgt_dec _ _) as [G|G]; cbn [fst snd].
  - now apply sign_transfer with (b := func l param).
  - lra.
Qed.

Lemma iter_sign n l r :
  func l param * func r param <= 0 ->
  func (fst (Nat.iter n (spec_step func param) (l, r))) param
  * func (snd (Nat.iter n (spec_step func param) (l, r))) param <= 0.
Proof.
  intros H. induction n as [|n IH]; [exact H|].
  rewrite Nat.iter_succ.
  destruct (Nat.iter n (spec_step func param) (l, r)) as [l' r'].
  now apply spec_step_sign.
Qed.

(** A step keeps both ends between the ends it started from, whichever
    way round they are. *)
Lemma spec_step_between l r :
  Rmin l r <= Rmin (fst (spec_step func param (l, r)))
                   (snd (spec_step func param (l, r))) /\
  Rmax (fst (spec_step func param (l, r)))
       (snd (spec_step func param (l, r))) <= Rmax l r.
Proof.
  unfold spec_step, Rmin, Rmax.
  destruct (Rgt_dec _ _); cbn [fst snd];
    repeat destruct (Rle_dec _ _); lra.
Qed.

Lemma iter_between n l r :
  Rmin l r <= Rmin (fst (Nat.iter n (spec_step func param) (l, r)))
                   (snd (Nat.iter n (spec_step func param) (l, r))) /\
  Rmax (fst (Nat.iter n (spec_step func param) (l, r)))
       (snd (Nat.iter n (spec_step func param) (l, r))) <= Rmax l r.
Proof.
  induction n as [|n IH]; [cbn; lra|].
  rewrite Nat.iter_succ.
  destruct (Nat.iter n (spec_step func param) (l, r)) as [l' r'].
  cbn [fst snd] in IH. pose proof (spec_step_between l' r'). lra.
Qed.

(** With a function of one strict sign the left end moves at every
    step. *)
Lemma iter_left_moves n l r :
  (forall x y, func x param * func y param > 0) ->
  Nat.iter n (spec_step func param) (l, r) = (r - (r - l) / 2 ^ n, r).
Proof.
  intros H. induction n as [|n IH].
  - cbn. f_equal. lra.
  - rewrite Nat.iter_succ, IH. unfold spec_step.
    destruct (Rgt_dec _ _) as [G|G]; [|exfalso; apply G, H].
    f_equal. rewrite <- tech_pow_Rmult. field. apply pow_nonzero. lra.
Qed.

End BisectMore.

(** X1, in exact arithmetic.  With the floats read as real numbers, if
    the function changes sign across the initial bracket
    ([func(xleft) * func(xright) <= 0]), it changes sign across the
    bracket after every iteration of the loop. *)
Theorem bisect_keeps_sign_change {P : Type} (func : R -> P -> R)
    (xleft xright : R) (param : P) (numit : Z) (k : nat) :
  func xleft param * func xright param <= 0 ->
  (k <= Z.to_nat numit)%nat ->
  func (fst (bisect_prefix func xleft xright numit param k)) param
  * func (snd (bisect_prefix func xleft xright numit param k)) param <= 0.
Proof.
  intros H Hk. rewrite bisect_prefix_iter by exact Hk. now apply iter_sign.
Qed.

Lemma bisect_keeps_sign_change_witness :
  (fst (bisect_prefix (fun x (_ : unit) => x * x - 2) 0 2 3 tt 2)
   * fst (bisect_prefix (fun x (_ : unit) => x * x - 2) 0 2 3 tt 2) - 2)
  * (snd (bisect_prefix (fun x (_ : unit) => x * x - 2) 0 2 3 tt 2)
     * snd (bisect_prefix (fun x (_ : unit) => x * x - 2) 0 2 3 tt 2) - 2)
  <= 0.
Proof.
  apply (bisect_keeps_sign_change (fun x (_ : unit) => x * x - 2) 0 2 tt 3 2).
  - lra.
  - simpl. lia.
Defined.

(** X2, in exact arithmetic.  For a continuous function that changes
    sign across an ordered bracket, the value returned after [numit]
    iterations is within
    [(xright - xleft) / 2 ^ (numit + 1)] of a root lying in the
    bracket. *)
Theorem root_find_bisect_near_root {P : Type} (func : R -> P -> R)
    (xleft xright : R) (param : P) (numit : nat) :
  continuity (fun x => func x param) ->
  xleft <= xright ->
  func xleft param * func xright param <= 0 ->
  exists z,
    xleft <= z <= xright /\ func z param = 0 /\
    Rabs (root_find_bisect func xleft xright (Z.of_nat numit) param - z)
    <= (xright - xleft) / 2 ^ (S numit).
Proof.
  intros C Ho Hs. unfold root_find_bisect.
  rewrite bisect_loop_iter, Nat2Z.id.
  pose proof (iter_inside func param numit xleft xright Ho) as I.
  pose proof (iter_width func param numit xleft xright) as W.
  pose proof (iter_sign func param numit xleft xright Hs) as S.
  destruct (Nat.iter numit (spec_step func param) (xleft, xright)) as [l r].
  cbn [fst snd] in *.
  destruct (IVT_cor (fun x => func x param) l r C) as (z & Hz & Z0); try lra.
  exists z. repeat split; try lra.
  rewrite <- tech_pow_Rmult.
  replace ((xright - xleft) / (2 * 2 ^ numit)) with ((r - l) / 2)
    by (rewrite W; field; apply pow_nonzero; lra).
  apply Rabs_le. lra.
Qed.

Lemma root_find_bisect_near_root_witness :
  exists z,
    0 <= z <= 2 /\ z * z - 2 = 0 /\
    Rabs (root_find_bisect (fun x (_ : unit) => x * x - 2) 0 2
            (Z.of_nat 40) tt - z)
    <= (2 - 0) / 2 ^ 41.
Proof.
  apply (root_find_bisect_near_root (fun x (_ : unit) => x * x - 2) 0 2 tt 40).
  - intros x. reg.
  - lra.
  - lra.
Defined.

(** X3, in exact arithmetic.  With the floats read as real numbers,
    whichever way round the two bounds are given, the value returned
    lies between them, for every function and count. *)
Theorem root_find_bisect_between {P : Type} (func : R -> P -> R)
    (xleft xright : R) (param : P) (numit : Z) :
  Rmin xleft xright <= root_find_bisect func xleft xright numit param
  <= Rmax xleft xright.
Proof.
  unfold root_find_bisect. rewrite bisect_loop_iter.
  pose proof (iter_between func param (Z.to_nat numit) xleft xright) as B.
  destruct (Nat.iter _ _ _) as [l r]. cbn [fst snd] in B.
  revert B. unfold Rmin, Rmax. repeat destruct (Rle_dec _ _); lra.
Qed.

(** X4.  A count that is zero or negative runs no iteration: the result
    is the midpoint of the initial bounds, whatever the function. *)
Theorem root_find_bisect_no_iteration {P : Type} (func : R -> P -> R)
    (xleft xright : R) (param : P) (numit : Z) :
  (numit <= 0)%Z ->
  root_find_bisect func xleft xright numit param = (xleft + xright) / 2.
Proof.
  intros H. unfold root_find_bisect. rewrite bisect_loop_iter.
  replace (Z.to_nat numit) with 0%nat by lia. cbn. lra.
Qed.

Lemma root_find_bisect_no_iteration_witness :
  root_find_bisect (fun x (_ : unit) => x * x - 2) 0 2 (-3) tt = (0 + 2) / 2.
Proof.
  apply (root_find_bisect_no_iteration (fun x (_ : unit) => x * x - 2) 0 2 tt (-3)).
  lia.
Defined.

(** X5, in exact arithmetic.  Without a sign change the search is
    silently wrong: with the floats read as real numbers, for a function
    whose values all have one strict sign (every product of two values
    is positive) the left end moves at every step and the result is
    [xright - (xright - xleft) / 2 ^ (numit + 1)], which tends to
    [xright]. *)
Theorem root_find_bisect_one_sign {P : Type} (func : R -> P -> R)
    (xleft xright : R) (param : P) (numit : nat) :
  (forall x y, func x param * func y param > 0) ->
  bisect_loop func xleft xright (Z.of_nat numit) param
  = (xright - (xright - xleft) / 2 ^ numit, xright) /\
  root_find_bisect func xleft xright (Z.of_nat numit) param
  = xright - (xright - xleft) / 2 ^ (S numit).
Proof.
  intros H. unfold root_find_bisect.
  rewrite bisect_loop_iter, Nat2Z.id, iter_left_moves by exact H.
  split; [reflexivity|]. cbv beta iota.
  rewrite <- tech_pow_Rmult. replace 0.5 with (/ 2) by lra. field. apply pow_nonzero. lra.
Qed.

Lemma root_find_bisect_one_sign_witness :
  bisect_loop (fun x (_ : unit) => x * x + 1) 0 2 (Z.of_nat 3) tt
  = (2 - (2 - 0) / 2 ^ 3, 2) /\
  root_find_bisect (fun x (_ : unit) => x * x + 1) 0 2 (Z.of_nat 3) tt
  = 2 - (2 - 0) / 2 ^ 4.
Proof.
  apply (root_find_bisect_one_sign (fun x (_ : unit) => x * x + 1) 0 2 tt 3).
  intros x y. nra.
Defined.

(** ** Soft clip: how far it is from the identity and from the hard clip *)

Lemma ln_1_plus_lt d : 0 < d -> ln (1 + d) < d.
Proof.
  intros H. rewrite <- (ln_exp d) at 2.
  apply ln_increasing; [lra|]. apply exp_ineq1. lra.
Qed.

Lemma ln_1_plus_le d : 0 <= d -> ln (1 + d) <= d.
Proof.
  intros [H| <-]; [left; now apply ln_1_plus_lt|].
  rewrite Rplus_0_r, ln_1. lra.
Qed.

Lemma ln_nondecreasing x y : 0 < x -> x <= y -> ln x <= ln y.
Proof.
  intros Hx [H| ->]; [left; now apply ln_increasing|lra].
Qed.

(** The logarithmic tail grows no faster than its argument. *)
Lemma ln_1_plus_diff a b :
  0 <= a -> a <= b -> ln (1 + b) - ln (1 + a) <= b - a.
Proof.
  intros Ha Hab.
  assert (M : ln (1 + b) <= ln ((1 + a) * (1 + (b - a))))
    by (apply ln_nondecreasing; nra).
  rewrite ln_mult in M by lra.
  pose proof (ln_1_plus_le (b - a)). lra.
Qed.

Section SoftclipMore.

Variables a_min a_max : R.

Lemma softclip_slope_le_1 x y :
  x <= y -> softclip y a_min a_max - softclip x a_min a_max <= y - x.
Proof.
  intros Hxy.
  destruct (Rlt_le_dec x a_min) as [Hx|Hx];
    destruct (Rlt_le_dec y a_min) as [Hy|Hy]; try lra.
  - rewrite !softclip_low by assumption.
    pose proof (ln_1_plus_diff (a_min - y) (a_min - x)). lra.
  - rewrite (softclip_low _ _ x) by assumption.
    pose proof (ln_1_plus_le (a_min - x)).
    destruct (Rle_lt_dec y a_max) as [Hy'|Hy'].
    + rewrite softclip_mid by lra. lra.
    + rewrite softclip_high by lra.
      pose proof (ln_1_plus_le (y - a_max)). lra.
  - destruct (Rle_lt_dec y a_max) as [Hy'|Hy'].
    + rewrite !softclip_mid by lra. lra.
    + rewrite (softclip_high _ _ y) by lra.
      destruct (Rle_lt_dec x a_max) as [Hx'|Hx'].
      * rewrite softclip_mid by lra.
        pose proof (ln_1_plus_le (y - a_max)). lra.
      * rewrite softclip_high by lra.
        pose proof (ln_1_plus_diff (x - a_max) (y - a_max)). lra.
Qed.

Lemma softclip_nondecreasing x y :
  a_min <= a_max ->
  x <= y -> softclip x a_min a_max <= softclip y a_min a_max.
Proof.
  intros H0 [H| ->]; [|lra].
  left. now apply softclip_strictly_increasing.
Qed.

End SoftclipMore.

(** X6, in exact arithmetic.  With the floats read as real numbers,
    outside the range the soft clip lies strictly between its argument
    and the hard clip of its argument:
    [x < softclip(x) < a_min] below [a_min], and
    [a_max < softclip(x) < x] above [a_max]. *)
Theorem softclip_between_identity_and_clip (x a_min a_max : R) :
  a_min <= a_max ->
  x < a_min \/ a_max < x ->
  Rmin x (Jax.clip x a_min a_max) < softclip x a_min a_max
  < Rmax x (Jax.clip x a_min a_max).
Proof.
  intros H [Hx|Hx]; unfold Jax.clip, Jax.minimum, Jax.maximum.
  - rewrite Rmax_right, (Rmin_left a_min a_max) by lra.
    rewrite Rmin_left, Rmax_right by lra.
    rewrite softclip_low by exact Hx.
    pose proof (ln_1_plus_lt (a_min - x)).
    pose proof (ln_1_plus_pos (a_min - x)). lra.
  - rewrite Rmax_left, (Rmin_right x a_max) by lra.
    rewrite Rmin_right, Rmax_left by lra.
    rewrite softclip_high by lra.
    pose proof (ln_1_plus_lt (x - a_max)).
    pose proof (ln_1_plus_pos (x - a_max)). lra.
Qed.

Lemma softclip_between_identity_and_clip_witness :
  Rmin (-3) (Jax.clip (-3) 0 1) < softclip (-3) 0 1
  < Rmax (-3) (Jax.clip (-3) 0 1).
Proof.
  apply (softclip_between_identity_and_clip (-3) 0 1); lra.
Defined.

(** X7, in exact arithmetic.  With the floats read as real numbers and
    ordered bounds, the soft clip never stretches a distance:
    [|softclip(x) - softclip(y)| <= |x - y|]. *)
Theorem softclip_nonexpansive (x y a_min a_max : R) :
  a_min <= a_max ->
  Rabs (softclip x a_min a_max - softclip y a_min a_max) <= Rabs (x - y).
Proof.
  intros H.
  destruct (Rle_lt_dec x y) as [Hxy|Hxy].
  - pose proof (softclip_slope_le_1 a_min a_max x y Hxy).
    pose proof (softclip_nondecreasing a_min a_max x y H Hxy).
    rewrite !Rabs_left1 by lra. lra.
  - assert (Hyx : y <= x) by lra.
    pose proof (softclip_slope_le_1 a_min a_max y x Hyx).
    pose proof (softclip_nondecreasing a_min a_max y x H Hyx).
    rewrite !Rabs_right by lra. lra.
Qed.

Lemma softclip_nonexpansive_witness :
  Rabs (softclip (-3) 0 1 - softclip 5 0 1) <= Rabs (-3 - 5).
Proof.
  apply (softclip_nonexpansive (-3) 5 0 1). lra.
Defined.

(** X8, in exact arithmetic.  With the floats read as real numbers and
    the bounds the wrong way round ([a_max < a_min]), the soft clip is
    no longer monotone: it drops at [a_min], so some smaller argument
    has a larger value. *)
Theorem softclip_swapped_bounds_not_monotone (a_min a_max : R) :
  a_max < a_min ->
  exists x, x < a_min /\ softclip a_min a_min a_max < softclip x a_min a_max.
Proof.
  intros H.
  assert (E : softclip a_min a_min a_max
              = a_max + ln (1 + (a_min - a_max)))
    by (apply softclip_high; lra).
  pose proof (ln_1_plus_lt (a_min - a_max)) as L.
  set (g := a_min - (a_max + ln (1 + (a_min - a_max)))).
  assert (Hg : 0 < g) by (unfold g; lra).
  exists (a_min - g / 2). split; [lra|].
  rewrite E, softclip_low by lra.
  pose proof (ln_1_plus_lt (a_min - (a_min - g / 2))).
  unfold g in *. lra.
Qed.

Lemma softclip_swapped_bounds_not_monotone_witness :
  exists x, x < 1 /\ softclip 1 1 0 < softclip x 1 0.
Proof.
  apply (softclip_swapped_bounds_not_monotone 1 0). lra.
Defined.

(** ** Complex log-gamma: the Lanczos sum *)

Lemma abs_sqr w : Cplx.abs w ^ 2 = Cplx.re w * Cplx.re w + Cplx.im w * Cplx.im w.
Proof.
  unfold Cplx.abs. apply pow2_sqrt. nra.
Qed.

Lemma abs_sqr_pos w : w <> (#0)%C -> 0 < Cplx.abs w ^ 2.
Proof.
  intros H. rewrite abs_sqr. destruct w as [a b]. cbn [Cplx.re Cplx.im].
  destruct (Req_dec a 0) as [->|Ha]; [|nra].
  destruct (Req_dec b 0) as [->|Hb]; [|nra].
  now contradiction H.
Qed.

(** [c / |w|^2 * conj(w)] is the quotient [c / w]: multiplied by [w] it
    gives [c] back. *)
Lemma conj_quotient c w :
  w <> (#0)%C -> (#(c / Cplx.abs w ^ 2) * Cplx.conj w * w)%C = (#c)%C.
Proof.
  intros H. pose proof (abs_sqr_pos w H) as Hp. rewrite abs_sqr in *.
  destruct w as [a b]. unfold Cplx.mul, Cplx.conj, Cplx.of_real.
  cbn [Cplx.re Cplx.im] in *. f_equal; field; lra.
Qed.

Lemma abs_sqr_re_bound w : 0.5 <= Cplx.re w -> 0.25 <= Cplx.abs w ^ 2.
Proof.
  intros H. rewrite abs_sqr. nra.
Qed.

(** The source's sum is the sum of [lanczos_terms]. *)
Lemma lngamma_lanczos_complex_terms z :
  lngamma_lanczos_complex z
  = ((z - #1.0 + #0.5) * Cplx.log (z - #1.0 + #7.5) - (z - #1.0 + #7.5)
     + #LogRootTwoPi_
     + Cplx.log (#(nth 0 lanczos_7_c 0) + Cplx.sum (lanczos_terms z)))%C.
Proof. reflexivity. Qed.

(** X9, in exact arithmetic.  With the floats read as real numbers,
    where none of [z - 1 + k], [k = 1..8], is zero, each summand of the
    Lanczos sum is the complex quotient [c_k / (z - 1 + k)]: multiplied
    by [z - 1 + k] it gives the coefficient [c_k]. *)
Theorem lanczos_terms_are_quotients (z : Cplx.C) :
  Forall (fun w => w <> (#0)%C) (lanczos_shifted z) ->
  Cplx.map2 Cplx.mul (lanczos_terms z) (lanczos_shifted z)
  = map Cplx.of_real (tl lanczos_7_c).
Proof.
  unfold lanczos_terms, lanczos_shifted. rewrite arange_1_9_INR.
  cbn [map]. intros H.
  repeat match goal with
         | H : Forall _ (_ :: _) |- _ =>
             let H1 := fresh "N" in
             let H2 := fresh "F" in
             apply Forall_cons_iff in H as [H1 H2]
         end.
  cbn [lanczos_7_c tl Cplx.map2 combine map fst snd].
  repeat (f_equal; try (now apply conj_quotient)).
Qed.

Lemma lanczos_terms_are_quotients_witness :
  Cplx.map2 Cplx.mul (lanczos_terms (Cplx.mk 1 0))
    (lanczos_shifted (Cplx.mk 1 0))
  = map Cplx.of_real (tl lanczos_7_c).
Proof.
  apply (lanczos_terms_are_quotients (Cplx.mk 1 0)).
  unfold lanczos_shifted. rewrite arange_1_9_INR. cbn [map].
  repeat (apply Forall_cons;
          [intros E; apply (f_equal Cplx.re) in E;
           cbn [Cplx.re Cplx.add Cplx.sub Cplx.of_real INR] in E; lra|]).
  apply Forall_nil.
Defined.

(** X10, in exact arithmetic.  With the floats read as real numbers,
    [lngamma_complex_e] evaluates the Lanczos core only at arguments of
    real part at least 0.5.  There each of the eight squared moduli the
    sum divides by is at least 1/4, and the argument [z - 1 + 7.5] of
    the first logarithm has real part at least 7. *)
Theorem lngamma_core_safe (z : Cplx.C) :
  (lngamma_complex_e z = lngamma_lanczos_complex (lngamma_core_argument z) \/
   lngamma_complex_e z
   = (#lnpi - Cplx.log (Cplx.sin (#PI * z))
      - lngamma_lanczos_complex (lngamma_core_argument z))%C) /\
  0.5 <= Cplx.re (lngamma_core_argument z) /\
  Forall (fun w => 0.25 <= Cplx.abs w ^ 2)
    (lanczos_shifted (lngamma_core_argument z)) /\
  7 <= Cplx.re (lngamma_core_argument z - #1.0 + #7.5)%C.
Proof.
  assert (A : 0.5 <= Cplx.re (lngamma_core_argument z)).
  { unfold lngamma_core_argument, Jax.lax_cond.
    destruct (Jax.leb (Cplx.re z) 0.5) eqn:E.
    - apply leb_true in E. cbn [Cplx.re Cplx.sub Cplx.of_real]. lra.
    - apply leb_false in E. lra. }
  split; [|split; [exact A|split]].
  - unfold lngamma_complex_e, lngamma_core_argument, Jax.lax_cond.
    destruct (Jax.leb (Cplx.re z) 0.5); auto.
  - unfold lanczos_shifted. rewrite arange_1_9_INR. cbn [map].
    unfold lngamma_core_argument, Jax.lax_cond in *.
    repeat (apply Forall_cons;
            [apply abs_sqr_re_bound;
             cbn [Cplx.re Cplx.add Cplx.sub Cplx.of_real INR]; lra|]).
    apply Forall_nil.
  - cbn [Cplx.re Cplx.add Cplx.sub Cplx.of_real]. lra.
Qed.

(** ** Savitzky-Golay filter: windows and the loop *)

Lemma range2_NoDup a b : NoDup (Jax.range2 a b).
Proof.
  unfold Jax.range2. generalize 0%nat as s.
  induction (Z.to_nat (b - a)) as [|n IH]; intros s; cbn [seq map].
  - constructor.
  - constructor; [|apply IH].
    rewrite in_map_iff. intros (k & E & Hk). apply in_seq in Hk. lia.
Qed.

Lemma range2_first a b :
  (a < b)%Z -> exists rest, Jax.range2 a b = a :: rest.
Proof.
  intros H. unfold Jax.range2.
  destruct (Z.to_nat (b - a)) as [|n] eqn:E; [lia|].
  cbn [seq map]. eexists. f_equal. lia.
Qed.

Lemma set_nth_same l i v :
  (i < length l)%nat -> nth i (Arr.set_nth l i v) 0 = v.
Proof.
  revert i. induction l as [|h t IH]; intros [|i] H; cbn in *;
    try lia; try reflexivity.
  apply IH. lia.
Qed.

Lemma index_update_same arr j v :
  (j < length arr)%nat ->
  nth j (Arr.index_update arr (Z.of_nat j) v) 0 = v.
Proof.
  intros H. unfold Arr.index_update.
  destruct (Z.ltb_spec (Z.of_nat j) 0); [lia|].
  destruct (Z.leb_spec 0 (Z.of_nat j)); [|lia].
  destruct (Z.ltb_spec (Z.of_nat j) (Z.of_nat (length arr))); [|lia].
  cbn [andb]. rewrite Nat2Z.id. now apply set_nth_same.
Qed.

(** A slice whose bounds lie inside the array, in order. *)
Lemma slice_inside y a b :
  (0 <= a <= b)%Z -> (b <= Z.of_nat (length y))%Z ->
  Arr.slice y a b = firstn (Z.to_nat (b - a)) (skipn (Z.to_nat a) y).
Proof.
  intros Ha Hb. unfold Arr.slice, Arr.slice_bound.
  destruct (Z.ltb_spec a 0); [lia|]. destruct (Z.ltb_spec b 0); [lia|].
  now rewrite !Z.min_l by lia.
Qed.

Section Windows.

Variable y : list R.
Variable w : Z.
Hypothesis w_odd : (w mod 2 = 1)%Z.
Hypothesis w_pos : (0 < w)%Z.

Lemma window_bounds i :
  (w / 2 <= i < Z.of_nat (length y) - w / 2)%Z ->
  (0 <= i - w / 2 <= i + w / 2 + 1)%Z /\
  (i + w / 2 + 1 <= Z.of_nat (length y))%Z /\
  (i + w / 2 + 1 - (i - w / 2) = w)%Z.
Proof.
  intros H. pose proof (Z.div_mod w 2). pose proof (Z.div_pos w 2). lia.
Qed.

Lemma window_slice i :
  (w / 2 <= i < Z.of_nat (length y) - w / 2)%Z ->
  Arr.slice y (i - w / 2) (i + w / 2 + 1)
  = firstn (Z.to_nat w) (skipn (Z.to_nat (i - w / 2)) y).
Proof.
  intros H. destruct (window_bounds i H) as (B1 & B2 & B3).
  rewrite slice_inside by assumption. now rewrite B3.
Qed.

Lemma window_length i :
  (w / 2 <= i < Z.of_nat (length y) - w / 2)%Z ->
  length (Arr.slice y (i - w / 2) (i + w / 2 + 1)) = Z.to_nat w.
Proof.
  intros H. destruct (window_bounds i H) as (B1 & B2 & B3).
  rewrite window_slice, length_firstn, length_skipn by exact H. lia.
Qed.

Variable c : list R.

(** A loop over distinct interior indices, with coefficients as many as
    the window is long, completes; each index of the loop holds the dot
    product of its window and every other entry is as before. *)
Lemma savgol_loop_content l :
  length c = Z.to_nat w ->
  NoDup l ->
  Forall (fun i => (w / 2 <= i < Z.of_nat (length y) - w / 2)%Z) l ->
  forall ys, length ys = length y ->
  exists out,
    fold_left (savgol_body y c w) l (Ok ys) = Ok out /\
    length out = length y /\
    forall j,
      (In (Z.of_nat j) l ->
       Arr.dot_vv c (Arr.slice y (Z.of_nat j - w / 2) (Z.of_nat j + w / 2 + 1))
       = Ok (nth j out 0)) /\
      (~ In (Z.of_nat j) l -> nth j out 0 = nth j ys 0).
Proof.
  intros Hc Hnd Hl. induction Hl as [|a l Ha Hl IH]; intros ys Hys.
  - exists ys. cbn. repeat split; tauto.
  - apply NoDup_cons_iff in Hnd as [Hna Hnd].
    cbn [fold_left]. unfold savgol_body at 2. cbn [bind].
    destruct (Arr.dot_vv c _) as [v|e] eqn:D; cbn [bind].
    + destruct (IH Hnd (Arr.index_update ys a v)) as (out & E & L & F).
      { now rewrite index_update_length. }
      exists out. split; [exact E|]. split; [exact L|].
      intros j. destruct (F j) as [F1 F2]. split.
      * intros [->|Hin]; [|now apply F1].
        rewrite (F2 Hna), index_update_same; [exact D|].
        pose proof (Z.div_pos w 2). lia.
      * intros Hn. rewrite F2 by (intros Hin; apply Hn; now right).
        apply index_update_other.
        -- pose proof (Z.div_pos w 2). lia.
        -- intros Eq. apply Hn. now left.
    + unfold Arr.dot_vv in D.
      rewrite window_length, Hc, Nat.eqb_refl in D by exact Ha.
      discriminate.
Qed.

End Windows.

(** X11.  For an odd window that fits the input, every window the loop
    takes, [y[i - window_length//2 : i + window_length//2 + 1]] for [i]
    from [window_length//2] to [len(y) - window_length//2 - 1], has
    exactly [window_length] entries, the entries of [y] from index
    [i - window_length//2] on: no bound of a slice is clamped or counted
    from the end. *)
Theorem savgol_windows_full (y : list R) (w i : Z) :
  (w mod 2 = 1)%Z ->
  (0 < w)%Z ->
  (w / 2 <= i < Z.of_nat (length y) - w / 2)%Z ->
  length (Arr.slice y (i - w / 2) (i + w / 2 + 1)) = Z.to_nat w /\
  forall k, (k < Z.to_nat w)%nat ->
    nth k (Arr.slice y (i - w / 2) (i + w / 2 + 1)) 0
    = nth (Z.to_nat (i - w / 2) + k) y 0.
Proof.
  intros Ho Hp Hi. split; [now apply window_length|].
  intros k Hk. rewrite window_slice by assumption.
  rewrite nth_firstn, nth_skipn.
  destruct (Nat.ltb_spec k (Z.to_nat w)); [reflexivity|lia].
Qed.

Lemma savgol_windows_full_witness :
  length (Arr.slice [1; 2; 3; 4; 5] (2 - 3 / 2) (2 + 3 / 2 + 1)) = Z.to_nat 3 /\
  forall k, (k < Z.to_nat 3)%nat ->
    nth k (Arr.slice [1; 2; 3; 4; 5] (2 - 3 / 2) (2 + 3 / 2 + 1)) 0
    = nth (Z.to_nat (2 - 3 / 2) + k) [1; 2; 3; 4; 5] 0.
Proof.
  apply (savgol_windows_full [1; 2; 3; 4; 5] 3 2).
  - reflexivity.
  - lia.
  - cbn. lia.
Defined.

(** X12.  The filter loop, given an odd window that fits the input and
    as many coefficients as the window is long, completes: the output
    has the length of [y], its first and last [window_length//2] entries
    are zero, and every entry [i] between them is
    [jnp.dot(c, y[i - window_length//2 : i + window_length//2 + 1])]. *)
Theorem savgol_apply_result (y c : list R) (w : Z) :
  (w mod 2 = 1)%Z ->
  (0 < w <= Z.of_nat (length y))%Z ->
  length c = Z.to_nat w ->
  exists out,
    savgol_apply y c w = Ok out /\
    length out = length y /\
    (forall j, (Z.of_nat j < w / 2 \/
                Z.of_nat (length y) - w / 2 <= Z.of_nat j)%Z ->
               nth j out 0 = 0) /\
    (forall j, (w / 2 <= Z.of_nat j < Z.of_nat (length y) - w / 2)%Z ->
               Arr.dot_vv c (Arr.slice y (Z.of_nat j - w / 2)
                                         (Z.of_nat j + w / 2 + 1))
               = Ok (nth j out 0)).
Proof.
  intros Ho [Hp Hn] Hc. unfold savgol_apply.
  destruct (savgol_loop_content y w Ho Hp c
              (Jax.range2 (w / 2) (Z.of_nat (length y) - w / 2)) Hc
              (range2_NoDup _ _)) with (ys := Arr.zeros_like y)
    as (out & E & L & F).
  - apply Forall_forall. intros i Hi. now apply range2_In in Hi.
  - unfold Arr.zeros_like. apply repeat_length.
  - exists out. split; [exact E|]. split; [exact L|]. split.
    + intros j Hj. destruct (F j) as [_ F2]. rewrite F2.
      * unfold Arr.zeros_like. apply nth_repeat.
      * rewrite range2_In. lia.
    + intros j Hj. destruct (F j) as [F1 _]. apply F1.
      now apply range2_In.
Qed.

Lemma savgol_apply_result_witness :
  exists out,
    savgol_apply [1; 2; 3; 4; 5] [1; 1; 1] 3 = Ok out /\
    length out = length [1; 2; 3; 4; 5] /\
    (forall j, (Z.of_nat j < 3 / 2 \/
                Z.of_nat (length [1; 2; 3; 4; 5]) - 3 / 2 <= Z.of_nat j)%Z ->
               nth j out 0 = 0) /\
    (forall j, (3 / 2 <= Z.of_nat j
                < Z.of_nat (length [1; 2; 3; 4; 5]) - 3 / 2)%Z ->
               Arr.dot_vv [1; 1; 1]
                 (Arr.slice [1; 2; 3; 4; 5] (Z.of_nat j - 3 / 2)
                                            (Z.of_nat j + 3 / 2 + 1))
               = Ok (nth j out 0)).
Proof.
  apply (savgol_apply_result [1; 2; 3; 4; 5] [1; 1; 1] 3).
  - reflexivity.
  - cbn. lia.
  - reflexivity.
Defined.

(** X13.  With coefficients fewer or more than the window is long, the
    filter loop raises the shape error of [jnp.dot] at its first
    index. *)
Theorem savgol_apply_shape_error (y c : list R) (w : Z) :
  (w mod 2 = 1)%Z ->
  (0 < w <= Z.of_nat (length y))%Z ->
  length c <> Z.to_nat w ->
  savgol_apply y c w = Raise Arr.shape_error.
Proof.
  intros Ho [Hp Hn] Hc. unfold savgol_apply.
  pose proof (Z.div_mod w 2) as Hd.
  destruct (range2_first (w / 2) (Z.of_nat (length y) - w / 2))
    as [rest ->]; [lia|].
  cbn [fold_left]. unfold savgol_body at 2. cbn [bind].
  unfold Arr.dot_vv. rewrite window_length by (try assumption; lia).
  destruct (Nat.eqb_spec (length c) (Z.to_nat w)); [contradiction|].
  cbn [bind]. apply savgol_loop_raise.
Qed.

Lemma savgol_apply_shape_error_witness :
  savgol_apply [1; 2; 3; 4; 5] [1; 1] 3 = Raise Arr.shape_error.
Proof.
  apply (savgol_apply_shape_error [1; 2; 3; 4; 5] [1; 1] 3).
  - reflexivity.
  - cbn. lia.
  - cbn. lia.
Defined.

(** ** Savitzky-Golay filter: the whole call *)

(** X14.  No call of [savgol_filter] returns an array, whatever the
    input and the solver: parameters that pass the validation raise the
    shape error of [jnp.dot(AT, b)], and all others raise one of the
    [ValueError]s of the validation (even window, window too small,
    window too large, [polyorder < 1]). *)
Theorem savgol_filter_always_raises
    (solve : Arr.array2 -> list R -> result (list R))
    (y : list R) (w p : Z) :
  (valid_input y w p /\
   savgol_filter solve y w p = Raise Arr.shape_error) \/
  (~ valid_input y w p /\
   exists msg,
     In msg [msg_odd; msg_small; msg_large; msg_polyorder_small] /\
     savgol_filter solve y w p = Raise (ValueError msg)).
Proof.
  destruct (Z.eq_dec (w mod 2) 0) as [E|E].
  { right. split; [unfold valid_input, even_window, window_too_small,
      window_too_large, polyorder_too_small; tauto|].
    exists msg_odd. split; [cbn; auto|now apply savgol_even]. }
  destruct (Z_lt_dec w (p + 2)) as [S|S].
  { right. split; [unfold valid_input, even_window, window_too_small,
      window_too_large, polyorder_too_small; tauto|].
    exists msg_small. split; [cbn; auto|now apply savgol_small]. }
  destruct (Z_gt_dec w (Z.of_nat (length y))) as [L|L].
  { right. split; [unfold valid_input, even_window, window_too_small,
      window_too_large, polyorder_too_small; tauto|].
    exists msg_large. split; [cbn; auto|now apply savgol_large]. }
  destruct (Z_lt_dec p 1) as [Q|Q].
  { right. split; [unfold valid_input, even_window, window_too_small,
      window_too_large, polyorder_too_small; tauto|].
    exists msg_polyorder_small.
    split; [cbn; auto|now apply savgol_polyorder_small]. }
  left.
  assert (V : valid_input y w p).
  { unfold valid_input, polyorder_too_large, window_too_small in *.
    repeat split; try assumption. lia. }
  split; [exact V|now apply savgol_valid_raises].
Qed.

(** X15.  A polynomial order above the window length is refused with
    the failure for an even window or for a window too small; the
    failure worded for it, [polyorder is too large for the window
    length], is the outcome of no call. *)
Theorem savgol_polyorder_large_shadowed
    (solve : Arr.array2 -> list R -> result (list R))
    (y : list R) (w p : Z) :
  savgol_filter solve y w p <> Raise (ValueError msg_polyorder_large) /\
  (polyorder_too_large w p ->
   savgol_filter solve y w p = Raise (ValueError msg_odd) \/
   savgol_filter solve y w p = Raise (ValueError msg_small)).
Proof.
  split; [apply savgol_polyorder_large_unreachable|].
  intros H. apply polyorder_too_large_small in H.
  destruct (Z.eq_dec (w mod 2) 0) as [E|E].
  - left. now apply savgol_even.
  - right. now apply savgol_small.
Qed.
